(** * lingvo/core/ops/input_common.h: the [InputOp] kernel

    A shallow embedding of the constructor and of [Compute] of the
    [InputOp<RecordProcessorClass>] op kernel, and the properties of its
    configuration checks, per-source seed derivation and stream
    composition. *)

From Stdlib Require Import ZArith Lia Floats Ascii String Sorted.
From stdpp Require Import base tactics option list strings pretty gmap.

Local Open Scope Z_scope.

(** ** Fixed-width integers

    [int64] and [int32] values are integers of [Z]; arithmetic that can
    leave the range is reduced to the two's-complement representative. *)
Module Int.

Definition int32_max : Z := 2147483647.
Definition int32_min : Z := -2147483648.
Definition int64_max : Z := 9223372036854775807.
Definition int64_min : Z := -9223372036854775808.

Definition wrap32 (z : Z) : Z := (z + 2 ^ 31) mod 2 ^ 32 - 2 ^ 31.
Definition wrap64 (z : Z) : Z := (z + 2 ^ 63) mod 2 ^ 64 - 2 ^ 63.

Definition in_int32 (z : Z) : Prop := int32_min <= z <= int32_max.
Definition in_int64 (z : Z) : Prop := int64_min <= z <= int64_max.

(** [a + b] on [int64] operands. *)
Definition add64 (a b : Z) : Z := wrap64 (a + b).

(** [a % b] of C++: the quotient is truncated towards zero, so the
    remainder takes the sign of the dividend. *)
Definition rem64 (a b : Z) : Z := Z.rem a b.

(** [static_cast<int>(n)] of a [size_t]. *)
Definition int_of_size (n : nat) : Z := wrap32 (Z.of_nat n).

End Int.

(** ** [str_util::Split(text, delim)]

    TensorFlow's splitter with its default [AllowEmpty] predicate: an empty
    text has no token at all; otherwise every delimiter closes a token
    (possibly an empty one) and the end of the text closes the last. *)
Module str_util.

Fixpoint split_from (delim : ascii) (token : string) (text : string)
  : list string :=
  match text with
  | EmptyString => [token]
  | String c rest =>
      if Ascii.eqb c delim
      then token :: split_from delim EmptyString rest
      else split_from delim (token +:+ String c EmptyString) rest
  end.

Definition Split (text : string) (delim : ascii) : list string :=
  match text with
  | EmptyString => []
  | _ => split_from delim EmptyString text
  end.

End str_util.

(** ** Per-source seed (constructor, lines 77-86) *)

Definition seed_modulus : Z := Int.int32_max - 1.

Definition derive_seed (file_random_seed : Z) (i : Z) : Z :=
  if file_random_seed =? 0 then
    0 (* Let the yielder pick a random seed. *)
  else
    let seed := Int.rem64 (Int.add64 file_random_seed i) seed_modulus in
    if seed =? 0 then Int.add64 seed 1 (* Add 1 to avoid 0. *)
    else seed.

(** ** [std::is_sorted] on an [Int64Vec]

    True when no element is smaller than its predecessor. *)
Fixpoint is_sorted (v : list Z) : bool :=
  match v with
  | [] => true
  | x :: rest =>
      match rest with
      | [] => true
      | y :: _ => negb (y <? x) && is_sorted rest
      end
  end.

(** ** Collaborators: yielders *)

Module BasicRecordYielder.
Record Options := {
  file_pattern : string;
  seed : Z;
  bufsize : Z;
  parallelism : Z
}.
End BasicRecordYielder.

(** A [RecordYielder*] is one of the two kinds of yielder the constructor
    creates, identified by the arguments of its [New]. The weights are
    [float] in the source; every such value is a binary64 one, and the
    kernel only counts the weights and passes them on. *)
#[warnings="-register-all"]
Inductive RecordYielder : Type :=
| BasicYielder (opts : BasicRecordYielder.Options)
| WeightedMixYielder (seed : Z) (yielders : list RecordYielder)
                     (weights : list float).

Module RecordBatcher.
Record Options := {
  bucket_upper_bound : list Z;
  bucket_batch_limit : list Z;
  flush_every_n : Z;
  num_threads : Z
}.
End RecordBatcher.

(** ** Errors, effects and the construction monad *)

Inductive error : Type :=
| InvalidArgument (msg : string)
| Internal (msg : string)
| ConfigurationError (msg : string).

(** What the constructor does to the outside world, in program order. *)
Inductive event : Type :=
| LogInfo (msg : string)
| NewRecordProcessor
| NewBasicRecordYielder (opts : BasicRecordYielder.Options)
| NewWeightedMixRecordYielder (seed : Z) (yielders : list RecordYielder)
                              (weights : list float)
| NewRecordBatcher (opts : RecordBatcher.Options)
                   (yielder : RecordYielder).

(** [Failed e]: an [OP_REQUIRES] recorded the status [e] and returned, or a
    collaborator refused its configuration. [Undefined]: the code stepped
    outside defined behaviour ([front()] of an empty vector). *)
Inductive outcome (A : Type) : Type :=
| Done (a : A)
| Failed (e : error)
| Undefined.
Arguments Done {A} a.
Arguments Failed {A} e.
Arguments Undefined {A}.

Definition M (A : Type) : Type := list event -> outcome A * list event.

#[export] Instance M_ret : MRet M := fun A a tr => (Done a, tr).

#[export] Instance M_bind : MBind M := fun A B f m tr =>
  match m tr with
  | (Done a, tr') => f a tr'
  | (Failed e, tr') => (Failed e, tr')
  | (Undefined, tr') => (Undefined, tr')
  end.

Definition emit (e : event) : M unit := fun tr => (Done tt, tr ++ [e]).
Definition fail {A : Type} (e : error) : M A := fun tr => (Failed e, tr).
Definition undefined {A : Type} : M A := fun tr => (Undefined, tr).

(** [OP_REQUIRES(ctx, EXP, STATUS)]: when [EXP] is false, record the status
    and return from the enclosing function. *)
Definition OP_REQUIRES (exp : bool) (status : error) : M unit :=
  if exp then mret tt else fail status.

Definition LOG_INFO (msg : string) : M unit := emit (LogInfo msg).

Definition is_configuration_error (e : error) : bool :=
  match e with
  | InvalidArgument _ | ConfigurationError _ => true
  | Internal _ => false
  end.

Definition BasicRecordYielder_New (yopts : BasicRecordYielder.Options)
  : M RecordYielder :=
  emit (NewBasicRecordYielder yopts);; mret (BasicYielder yopts).

Definition WeightedMixRecordYielder_New (seed : Z)
    (yielders : list RecordYielder) (weights : list float)
  : M RecordYielder :=
  emit (NewWeightedMixRecordYielder seed yielders weights);;
  mret (WeightedMixYielder seed yielders weights).

(** ** Collaborators: the batcher *)

Record Batcher (Processor : Type) := {
  opts_ : RecordBatcher.Options;
  yielder_ : RecordYielder;
  batcher_processor_ : Processor
}.
Arguments opts_ {Processor} _.
Arguments yielder_ {Processor} _.
Arguments batcher_processor_ {Processor} _.

(** Modelled from the spec: the constructor of [RecordBatcher]
    (lingvo/core/ops/record_batcher.h and .cc) is not among the sources. The
    spec makes a bucket configuration whose [bucket_upper_bound] and
    [bucket_batch_limit] differ in length a fatal configuration error at
    construction, before any record is pulled; the sortedness of the bounds
    is checked by the caller. *)
Definition RecordBatcher_New {Processor : Type} (bopts : RecordBatcher.Options)
    (yielder : RecordYielder) (processor : Processor) : M (Batcher Processor) :=
  if (length (RecordBatcher.bucket_upper_bound bopts)
      =? length (RecordBatcher.bucket_batch_limit bopts))%nat
  then
    emit (NewRecordBatcher bopts yielder);;
    mret {| opts_ := bopts; yielder_ := yielder;
            batcher_processor_ := processor |}
  else
    fail (ConfigurationError
            "bucket_upper_bound and bucket_batch_limit differ in length").

(** ** The kernel *)

(** The attributes read by the [GETATTR] lines. *)
Record Attrs := {
  file_pattern : string;
  input_source_weights : list float;
  file_random_seed : Z;
  file_buffer_size : Z;
  file_parallelism : Z;
  bucket_upper_bound : list Z;
  bucket_batch_limit : list Z;
  flush_every_n : Z;
  num_threads : Z
}.

(** Lines 59-72: the file patterns of the sources. *)
Definition parse_file_patterns (a : Attrs) : M (list string) :=
  match input_source_weights a with
  | [] =>
      LOG_INFO
        "Input source weights are empty, fall back to legacy behavior.";;
      mret [file_pattern a]
  | _ :: _ =>
      let file_patterns := str_util.Split (file_pattern a) "," in
      OP_REQUIRES
        (length file_patterns =? length (input_source_weights a))%nat
        (InvalidArgument
           ("There should be exactly one input_source_weight " +:+
            "per coma-separated value in file_pattern."));;
      mret file_patterns
  end.

(** Lines 75-88: the options of the yielder of source [i]. *)
Definition yielder_options (a : Attrs) (i : Z) (pattern : string)
  : BasicRecordYielder.Options :=
  {| BasicRecordYielder.file_pattern := pattern;
     BasicRecordYielder.seed := derive_seed (file_random_seed a) i;
     BasicRecordYielder.bufsize := file_buffer_size a;
     BasicRecordYielder.parallelism := file_parallelism a |}.

(** Lines 73-90: the loop [for (int i = 0; i < file_patterns.size(); ++i)],
    entered at index [i] with the patterns from [i] on still to do. An attr
    string is shorter than 2^31 bytes, so [i] stays inside [int]. *)
Fixpoint new_yielders (a : Attrs) (i : Z) (file_patterns : list string)
  : M (list RecordYielder) :=
  match file_patterns with
  | [] => mret []
  | pattern :: rest =>
      y ← BasicRecordYielder_New (yielder_options a i pattern);
      ys ← new_yielders a (i + 1) rest;
      mret (y :: ys)
  end.

(** Lines 91-97: one stream out of the yielders. *)
Definition compose_yielder (file_random_seed : Z)
    (yielders : list RecordYielder) (input_source_weights : list float)
  : M RecordYielder :=
  if (1 <? length yielders)%nat then
    WeightedMixRecordYielder_New file_random_seed yielders input_source_weights
  else
    match yielders with
    | front :: _ => mret front
    | [] => undefined
    end.

Definition batcher_options (a : Attrs) : RecordBatcher.Options :=
  {| RecordBatcher.bucket_upper_bound := bucket_upper_bound a;
     RecordBatcher.bucket_batch_limit := bucket_batch_limit a;
     RecordBatcher.flush_every_n := flush_every_n a;
     RecordBatcher.num_threads := num_threads a |}.

Section InputOp.

(** The template argument, and the two things the kernel takes from its
    collaborators as they are: the processor its constructor creates, and
    the bucket id and batch that [RecordBatcher::GetNext] hands over once a
    batch is ready. *)
Context {RecordProcessorClass : Type} {Tensor : Type}.
Variable new_RecordProcessorClass : RecordProcessorClass.
Variable GetNext : Batcher RecordProcessorClass -> Z * list Tensor.

Record InputOp := {
  processor_ : RecordProcessorClass;
  batcher_ : Batcher RecordProcessorClass
}.

(** [InputOp::InputOp(OpKernelConstruction* ctx)] *)
Definition InputOp_new (a : Attrs) : M InputOp :=
  OP_REQUIRES (is_sorted (bucket_upper_bound a))
    (InvalidArgument "Bucket_upper_bound is not sorted");;
  LOG_INFO "Create RecordProcessor";;
  processor ← (emit NewRecordProcessor;; mret new_RecordProcessorClass);
  file_patterns ← parse_file_patterns a;
  yielders ← new_yielders a 0 file_patterns;
  yielder ← compose_yielder (file_random_seed a) yielders
              (input_source_weights a);
  LOG_INFO "Create batcher";;
  batcher ← RecordBatcher_New (batcher_options a) yielder processor;
  mret {| processor_ := processor; batcher_ := batcher |}.

(** The part of [OpKernelContext] that [Compute] touches: the number of
    outputs the caller expects, the status, and the output slots set so
    far. *)
Record OpKernelContext := {
  num_outputs : Z;
  status : option error;
  outputs : gmap Z Tensor
}.

Definition set_output (ctx : OpKernelContext) (index : Z) (tensor : Tensor)
  : OpKernelContext :=
  {| num_outputs := num_outputs ctx;
     status := status ctx;
     outputs := <[index := tensor]> (outputs ctx) |}.

Definition CtxFailure (ctx : OpKernelContext) (e : error)
  : OpKernelContext :=
  {| num_outputs := num_outputs ctx;
     status := Some e;
     outputs := outputs ctx |}.

(** Lines 117-119: [for (int i = 0; i < batch.size(); ++i)], entered at
    index [i] with the elements from [i] on still to copy. *)
Fixpoint set_outputs (ctx : OpKernelContext) (i : Z) (batch : list Tensor)
  : OpKernelContext :=
  match batch with
  | [] => ctx
  | tensor :: rest => set_outputs (set_output ctx i tensor) (i + 1) rest
  end.

(** [void InputOp::Compute(OpKernelContext* ctx)]; the [VLOG] line has no
    effect on the context. *)
Definition Compute (op : InputOp) (ctx : OpKernelContext)
  : OpKernelContext :=
  let '(bucket_id, batch) := GetNext (batcher_ op) in
  if Int.int_of_size (length batch) =? num_outputs ctx then
    set_outputs ctx 0 batch
  else
    CtxFailure ctx
      (Internal ("Unexpected batch: " +:+ pretty (length batch))).

End InputOp.

(** ** The derivation as the specification words it

    [(base_seed + source_index) mod (INT32_MAX - 1)] over the integers,
    plus one when that is zero. *)
Definition spec_derive (base_seed source_index : Z) : Z :=
  let r := (base_seed + source_index) mod (Int.int32_max - 1) in
  if r =? 0 then r + 1 else r.

(** ** Names for what the constructor builds and says *)

(** The yielder and the event of source [k] of a loop entered at [i]. *)
Definition yielder_at (a : Attrs) (i : Z) (k : nat) (pattern : string)
  : RecordYielder :=
  BasicYielder (yielder_options a (i + Z.of_nat k) pattern).

Definition yielder_event_at (a : Attrs) (i : Z) (k : nat) (pattern : string)
  : event :=
  NewBasicRecordYielder (yielder_options a (i + Z.of_nat k) pattern).

Definition parity_message : string :=
  "There should be exactly one input_source_weight " +:+
  "per coma-separated value in file_pattern.".

Definition legacy_message : string :=
  "Input source weights are empty, fall back to legacy behavior.".

(** Is the event the construction of the batcher? *)
Definition creates_batcher (ev : event) : bool :=
  match ev with
  | NewRecordBatcher _ _ => true
  | _ => false
  end.

(** Does the string hold the character? *)
Fixpoint has_char (c : ascii) (s : string) : bool :=
  match s with
  | EmptyString => false
  | String c' rest => Ascii.eqb c' c || has_char c rest
  end.

(** Did the run stay inside defined behaviour? *)
Definition is_defined {A : Type} (o : outcome A) : bool :=
  match o with
  | Undefined => false
  | _ => true
  end.

(** ** Running the construction monad *)

Ltac run_M :=
  cbv beta iota delta
    [mbind M_bind mret M_ret emit fail undefined OP_REQUIRES LOG_INFO
     BasicRecordYielder_New WeightedMixRecordYielder_New].

(** ** Sample configurations *)

Definition sample_bucketing (pattern : string) (weights : list float)
    (seed : Z) (upper_bound batch_limit : list Z) : Attrs :=
  {| file_pattern := pattern;
     input_source_weights := weights;
     file_random_seed := seed;
     file_buffer_size := 10000;
     file_parallelism := 16;
     bucket_upper_bound := upper_bound;
     bucket_batch_limit := batch_limit;
     flush_every_n := 0;
     num_threads := 1 |}.

(** Two weighted sources, the largest base seed. *)
Definition two_sources_max_seed : Attrs :=
  sample_bucketing "a.txt,b.txt" [0.5%float; 0.5%float] Int.int64_max
    [10; 50; 100] [4; 4; 4].

(** Two weighted sources, base seed 0. *)
Definition two_sources_auto_seed : Attrs :=
  sample_bucketing "a.txt,b.txt" [0.75%float; 0.25%float] 0
    [10; 50; 100] [4; 4; 4].

(** One weight for two patterns. *)
Definition two_patterns_one_weight : Attrs :=
  sample_bucketing "a.txt,b.txt" [1%float] 7 [10; 50; 100] [4; 4; 4].

(** No weights, a pattern with commas in it. *)
Definition legacy_with_commas : Attrs :=
  sample_bucketing "a.txt,b.txt" [] 7 [10; 50; 100] [4; 4; 4].

(** Bounds out of order. *)
Definition unsorted_bounds : Attrs :=
  sample_bucketing "a.txt" [] 7 [50; 10; 100] [4; 4; 4].

(** Three bounds, two limits. *)
Definition mismatched_limits : Attrs :=
  sample_bucketing "a.txt" [] 7 [10; 50; 100] [4; 4].

(** A kernel over the unit processor whose batcher hands out a batch of
    two tensors (named by strings) from bucket 1, and contexts expecting
    [n] outputs with none set yet. *)
Definition sample_op : @InputOp unit :=
  {| processor_ := tt;
     batcher_ :=
       {| opts_ := batcher_options legacy_with_commas;
          yielder_ :=
            BasicYielder (yielder_options legacy_with_commas 0 "a.txt,b.txt");
          batcher_processor_ := tt |} |}.

Definition sample_GetNext (b : Batcher unit) : Z * list string :=
  (1, ["t0"; "t1"]%string).

Definition sample_ctx (n : Z) : @OpKernelContext string :=
  {| num_outputs := n; status := None; outputs := ∅ |}.

(** Number of occurrences of the character in the string. *)
Fixpoint count_char (c : ascii) (s : string) : nat :=
  match s with
  | EmptyString => O
  | String c' rest =>
      if Ascii.eqb c' c then S (count_char c rest) else count_char c rest
  end.

(** The pattern list the constructor works on once parsing is through. *)
Definition source_patterns (a : Attrs) : list string :=
  match input_source_weights a with
  | [] => [file_pattern a]
  | _ :: _ => str_util.Split (file_pattern a) ","
  end.

(** One weighted source, no comma in its pattern. *)
Definition one_weighted_source : Attrs :=
  sample_bucketing "a.txt" [0.5%float] 7 [10; 50; 100] [4; 4; 4].

(** The stream the constructor hands to the batcher, given its yielders:
    the only one, or a mixer over all of them. *)
Definition composed_stream (seed : Z) (yielders : list RecordYielder)
    (weights : list float) : RecordYielder :=
  match yielders with
  | [y] => y
  | _ => WeightedMixYielder seed yielders weights
  end.

(** Everything a successful construction does, in program order. *)
Definition construction_events (a : Attrs) : list event :=
  let file_patterns := source_patterns a in
  let yielders := imap (yielder_at a 0) file_patterns in
  [LogInfo "Create RecordProcessor"; NewRecordProcessor]
  ++ match input_source_weights a with
     | [] => [LogInfo legacy_message]
     | _ :: _ => []
     end
  ++ imap (yielder_event_at a 0) file_patterns
  ++ (if (1 <? length yielders)%nat
      then [NewWeightedMixRecordYielder (file_random_seed a) yielders
              (input_source_weights a)]
      else [])
  ++ [LogInfo "Create batcher";
      NewRecordBatcher (batcher_options a)
        (composed_stream (file_random_seed a) yielders
           (input_source_weights a))].

(** * Properties *)

(** ** Fixed-width arithmetic *)

Lemma wrap64_id (z : Z) : Int.in_int64 z -> Int.wrap64 z = z.
Proof.
  unfold Int.in_int64, Int.int64_min, Int.int64_max, Int.wrap64.
  intros Hz. rewrite Z.mod_small; lia.
Qed.

Lemma wrap32_id (z : Z) : Int.in_int32 z -> Int.wrap32 z = z.
Proof.
  unfold Int.in_int32, Int.int32_min, Int.int32_max, Int.wrap32.
  intros Hz. rewrite Z.mod_small; lia.
Qed.

Lemma wrap64_range (z : Z) : Int.in_int64 (Int.wrap64 z).
Proof.
  unfold Int.in_int64, Int.int64_min, Int.int64_max, Int.wrap64.
  pose proof (Z.mod_pos_bound (z + 2 ^ 63) (2 ^ 64)). lia.
Qed.

Lemma int_of_size_small (n : nat) :
  Z.of_nat n <= Int.int32_max -> Int.int_of_size n = Z.of_nat n.
Proof.
  intros Hn. apply wrap32_id.
  unfold Int.in_int32, Int.int32_min. lia.
Qed.

(** ** Seed derivation *)

(** The seed of a nonzero base seed, whatever the sum does. *)
Lemma derive_seed_unfold (s i : Z) :
  s <> 0 ->
  derive_seed s i =
    let r := Z.rem (Int.wrap64 (s + i)) seed_modulus in
    if r =? 0 then 1 else r.
Proof.
  intros Hs. unfold derive_seed, Int.rem64, Int.add64.
  destruct (Z.eqb_spec s 0) as [|_]; [contradiction|]. cbv zeta.
  destruct (Z.eqb_spec (Z.rem (Int.wrap64 (s + i)) seed_modulus) 0) as [->|];
    reflexivity.
Qed.

Lemma derive_seed_nonzero (s i : Z) : s <> 0 -> derive_seed s i <> 0.
Proof.
  intros Hs. rewrite derive_seed_unfold by assumption. cbv zeta.
  destruct (Z.eqb_spec (Z.rem (Int.wrap64 (s + i)) seed_modulus) 0); lia.
Qed.

(** Without overflow the sum is the mathematical one. *)
Lemma derive_seed_exact (s i : Z) :
  s <> 0 -> Int.in_int64 (s + i) ->
  derive_seed s i =
    let r := Z.rem (s + i) seed_modulus in if r =? 0 then 1 else r.
Proof.
  intros Hs Hsum. rewrite derive_seed_unfold by assumption.
  now rewrite wrap64_id.
Qed.

(** X1: whatever the base seed and the index, overflowing sum included,
    the derived seed lies strictly between [-(INT32_MAX - 1)] and
    [INT32_MAX - 1]: the remainder is smaller than the modulus in absolute
    value, so the seed fits an [int32]. *)
Lemma derive_seed_bound (s i : Z) :
  - seed_modulus < derive_seed s i < seed_modulus.
Proof.
  destruct (Z.eq_dec s 0) as [->|Hs].
  - unfold derive_seed, seed_modulus, Int.int32_max. simpl. lia.
  - rewrite derive_seed_unfold by assumption. cbv zeta.
    pose proof (Z.rem_bound_abs (Int.wrap64 (s + i)) seed_modulus) as Hb.
    assert (seed_modulus = 2147483646) as HM by reflexivity.
    rewrite HM in *.
    destruct (Z.eqb_spec (Z.rem (Int.wrap64 (s + i)) 2147483646) 0); lia.
Qed.

(** C1 (as stated in the specification, refuted): at the largest [int64]
    base seed the sum with index 1 leaves the [int64] range, the remainder
    is taken of the wrapped sum, and the derived seed is [-8], not the [8]
    that [(s + i) mod (INT32_MAX - 1)] gives. *)
Lemma derive_seed_overflow_counterexample :
  0 < Int.int64_max /\ Int.in_int64 Int.int64_max /\
  derive_seed Int.int64_max 1 = -8 /\
  spec_derive Int.int64_max 1 = 8 /\
  derive_seed Int.int64_max 1 <> spec_derive Int.int64_max 1.
Proof.
  repeat split; try (vm_compute; congruence).
Qed.

(** C1 (amended): for a base seed [s > 0] and a source index [i >= 0], the
    derived seed is [(s + i) mod (INT32_MAX - 1)], plus one when that is
    zero, provided [s + i] does not exceed [INT64_MAX]; for every [s > 0]
    and every [i] the derived seed is never zero and is determined by
    [(s, i)]. *)
Theorem derive_seed_positive (s i : Z) (Hs : 0 < s) (Hi : 0 <= i) :
  (s + i <= Int.int64_max -> derive_seed s i = spec_derive s i) /\
  derive_seed s i <> 0 /\
  (forall s' i', s' = s -> i' = i -> derive_seed s' i' = derive_seed s i).
Proof.
  split; [|split].
  - intros Hsum. rewrite derive_seed_exact.
    + unfold spec_derive. fold seed_modulus. cbv zeta.
      rewrite Z.rem_mod_nonneg by (unfold seed_modulus, Int.int32_max; lia).
      destruct (Z.eqb_spec ((s + i) mod seed_modulus) 0) as [->|];
        reflexivity.
    + lia.
    + unfold Int.in_int64, Int.int64_min. lia.
  - apply derive_seed_nonzero. lia.
  - intros s' i' -> ->. reflexivity.
Qed.

Lemma derive_seed_positive_witness :
  derive_seed 2147483640 6 = spec_derive 2147483640 6 /\
  derive_seed 2147483640 6 <> 0.
Proof.
  destruct (derive_seed_positive 2147483640 6) as (Heq & Hnz & _);
    [lia | lia |].
  split; [apply Heq; unfold Int.int64_max; lia | exact Hnz].
Defined.

(** ** The constructor's loop *)

(** The loop never fails: it creates one basic yielder per pattern, in
    order, source [k] with the index [i + k]. *)
Lemma new_yielders_run (a : Attrs) (file_patterns : list string) :
  forall (i : Z) (tr : list event),
    new_yielders a i file_patterns tr =
      (Done (imap (yielder_at a i) file_patterns),
       tr ++ imap (yielder_event_at a i) file_patterns).
Proof.
  induction file_patterns as [|p ps IH]; intros i tr.
  - cbn. now rewrite app_nil_r.
  - cbn [new_yielders imap]. run_M.
    rewrite IH. unfold yielder_at, yielder_event_at.
    change (Z.of_nat 0) with 0. rewrite Z.add_0_r, <- app_assoc. cbn [app].
    assert (forall k : nat, i + 1 + Z.of_nat k = i + Z.of_nat (S k)) as Hk
      by (intros k; lia).
    f_equal; [f_equal; f_equal | f_equal; f_equal];
      apply imap_ext; intros k x _; cbn [compose]; now rewrite Hk.
Qed.

Lemma new_yielders_length (a : Attrs) (i : Z) (ps : list string) :
  length (imap (yielder_at a i) ps) = length ps.
Proof. apply length_imap. Qed.

Lemma new_yielders_lookup (a : Attrs) (i : Z) (ps : list string) (k : nat) :
  imap (yielder_at a i) ps !! k = yielder_at a i k <$> ps !! k.
Proof. apply list_lookup_imap. Qed.

(** C8: with base seed 0 every source gets the seed 0, whatever its
    index: the derivation returns 0, and every yielder the constructor's
    loop creates is a basic yielder whose options carry the seed 0. *)
Theorem derive_seed_zero (a : Attrs) (H0 : file_random_seed a = 0) (i : Z) :
  derive_seed (file_random_seed a) i = 0 /\
  forall (file_patterns : list string) (tr : list event),
  exists ys tr',
    new_yielders a i file_patterns tr = (Done ys, tr') /\
    length ys = length file_patterns /\
    Forall (fun y => exists o, y = BasicYielder o /\
                               BasicRecordYielder.seed o = 0) ys.
Proof.
  split; [now rewrite H0|].
  intros ps tr. eexists _, _. split; [apply new_yielders_run|].
  split; [apply new_yielders_length|].
  apply Forall_lookup_2. intros k y Hk.
  rewrite new_yielders_lookup in Hk.
  destruct (ps !! k) as [p|]; [|discriminate]. injection Hk as <-.
  eexists. split; [reflexivity|].
  cbn. now rewrite H0.
Qed.

Lemma derive_seed_zero_witness :
  file_random_seed two_sources_auto_seed = 0 /\
  derive_seed (file_random_seed two_sources_auto_seed) 1 = 0.
Proof.
  split; [reflexivity|].
  exact (proj1 (derive_seed_zero two_sources_auto_seed eq_refl 1)).
Defined.

(** C10: for a negative base seed the same formula runs on the truncated
    remainder: the sum cannot overflow, the seed is the remainder of
    [s + i] unless that is exactly zero (then it is 1), it is negative
    whenever [s + i] is negative and not a multiple of the modulus, and it
    is determined by [(s, i)]. *)
Theorem derive_seed_negative (s i : Z)
    (Hs : s < 0) (Hmin : Int.int64_min <= s) (Hi : 0 <= i <= Int.int32_max) :
  let r := Z.rem (s + i) seed_modulus in
  derive_seed s i = (if r =? 0 then 1 else r) /\
  (r <> 0 -> derive_seed s i = r) /\
  (s + i < 0 -> r <> 0 -> derive_seed s i < 0) /\
  (exists s0 i0, s0 < 0 /\ derive_seed s0 i0 < 0) /\
  (forall s' i', s' = s -> i' = i -> derive_seed s' i' = derive_seed s i).
Proof.
  intros r.
  assert (derive_seed s i = if r =? 0 then 1 else r) as Heq.
  { rewrite derive_seed_exact; [reflexivity | lia |].
    unfold Int.in_int64, Int.int64_max, Int.int32_max in *. lia. }
  split; [exact Heq|]. split; [|split; [|split]].
  - intros Hr. rewrite Heq. now apply Z.eqb_neq in Hr as ->.
  - intros Hneg Hr. rewrite Heq. apply Z.eqb_neq in Hr as Hr'. rewrite Hr'.
    pose proof (Z.rem_nonpos (s + i) seed_modulus) as Hle.
    subst r. assert (seed_modulus <> 0) by (unfold seed_modulus; vm_compute; lia).
    specialize (Hle ltac:(assumption) ltac:(lia)). lia.
  - exists (-5), 0. split; [lia | vm_compute; reflexivity].
  - intros s' i' -> ->. reflexivity.
Qed.

Lemma derive_seed_negative_witness :
  derive_seed (-5) 2 = -3 /\ derive_seed (-2147483646) 0 = 1.
Proof.
  split.
  - destruct (derive_seed_negative (-5) 2) as (Heq & _);
      [lia | unfold Int.int64_min; lia | unfold Int.int32_max; lia |].
    exact Heq.
  - destruct (derive_seed_negative (-2147483646) 0) as (Heq & _);
      [lia | unfold Int.int64_min; lia | unfold Int.int32_max; lia |].
    exact Heq.
Defined.

(** ** Sorted bounds *)

Lemma is_sorted_Sorted (v : list Z) : is_sorted v = true <-> Sorted Z.le v.
Proof.
  induction v as [|x rest IH]; [split; [constructor | reflexivity]|].
  destruct rest as [|y rest'].
  - split; [repeat constructor | reflexivity].
  - change (is_sorted (x :: y :: rest'))
      with (negb (y <? x) && is_sorted (y :: rest'))%bool.
    rewrite andb_true_iff, negb_true_iff, Z.ltb_ge, IH. split.
    + intros [Hxy Hs]. constructor; [exact Hs | now constructor].
    + intros Hs. apply Sorted_inv in Hs as [Hs Hhd].
      apply HdRel_inv in Hhd. now split.
Qed.

Lemma is_sorted_false (v : list Z) : is_sorted v = false <-> ~ Sorted Z.le v.
Proof.
  rewrite <- is_sorted_Sorted. destruct (is_sorted v); split; congruence.
Qed.

(** ** Splitting *)

Lemma split_from_nonempty (delim : ascii) (text token : string) :
  str_util.split_from delim token text <> [].
Proof.
  revert token. induction text as [|c rest IH]; intros token; cbn.
  - discriminate.
  - destruct (Ascii.eqb c delim); [discriminate | apply IH].
Qed.

(** Only the empty text has no token. *)
Lemma Split_nil (text : string) (delim : ascii) :
  str_util.Split text delim = [] <-> text = EmptyString.
Proof.
  destruct text as [|c rest]; cbn [str_util.Split]; [tauto|].
  split; [|discriminate]. intros H. now apply split_from_nonempty in H.
Qed.

(** ** The pattern list *)

Lemma parse_file_patterns_legacy (a : Attrs) (tr : list event) :
  input_source_weights a = [] ->
  parse_file_patterns a tr =
    (Done [file_pattern a], tr ++ [LogInfo legacy_message]).
Proof. intros Hw. unfold parse_file_patterns. rewrite Hw. reflexivity. Qed.

Lemma parse_file_patterns_weighted (a : Attrs) (tr : list event) :
  input_source_weights a <> [] ->
  parse_file_patterns a tr =
    let file_patterns := str_util.Split (file_pattern a) "," in
    if (length file_patterns =? length (input_source_weights a))%nat
    then (Done file_patterns, tr)
    else (Failed (InvalidArgument parity_message), tr).
Proof.
  intros Hw. unfold parse_file_patterns.
  destruct (input_source_weights a) as [|w ws]; [contradiction|].
  cbv zeta. run_M.
  destruct (_ =? _)%nat; reflexivity.
Qed.

(** Whenever the pattern list is produced it is not empty. *)
Lemma parse_file_patterns_nonempty (a : Attrs) (tr tr' : list event)
    (file_patterns : list string) :
  parse_file_patterns a tr = (Done file_patterns, tr') ->
  file_patterns <> [].
Proof.
  destruct (input_source_weights a) as [|w ws] eqn:Hw.
  - rewrite parse_file_patterns_legacy by assumption.
    intros [= <- _]. discriminate.
  - rewrite parse_file_patterns_weighted by (rewrite Hw; discriminate).
    cbv zeta. rewrite Hw.
    destruct (Nat.eqb_spec (length (str_util.Split (file_pattern a) ","))
                (length (w :: ws))) as [Hlen|]; [|discriminate].
    intros [= <- _] Hnil. rewrite Hnil in Hlen. discriminate.
Qed.

(** ** Stream composition *)

Lemma compose_yielder_defined (seed : Z) (yielders : list RecordYielder)
    (weights : list float) (tr : list event) :
  yielders <> [] -> (compose_yielder seed yielders weights tr).1 <> Undefined.
Proof.
  intros Hne. unfold compose_yielder.
  destruct (1 <? length yielders)%nat; run_M; [discriminate|].
  destruct yielders; [contradiction | discriminate].
Qed.

(** ** The constructor, stage by stage *)

Section Construction.

Context {RecordProcessorClass : Type}.
Variable processor : RecordProcessorClass.

Lemma InputOp_new_unsorted (a : Attrs) (tr : list event) :
  is_sorted (bucket_upper_bound a) = false ->
  InputOp_new processor a tr =
    (Failed (InvalidArgument "Bucket_upper_bound is not sorted"), tr).
Proof. intros Hs. unfold InputOp_new. run_M. now rewrite Hs. Qed.

(** Past the sortedness check the constructor runs its stages in turn,
    each on the trace the previous one left. *)
Lemma InputOp_new_sorted (a : Attrs) (tr : list event) :
  is_sorted (bucket_upper_bound a) = true ->
  InputOp_new processor a tr =
    match parse_file_patterns a
            (tr ++ [LogInfo "Create RecordProcessor"; NewRecordProcessor])
    with
    | (Done file_patterns, tr1) =>
        match compose_yielder (file_random_seed a)
                (imap (yielder_at a 0) file_patterns)
                (input_source_weights a)
                (tr1 ++ imap (yielder_event_at a 0) file_patterns)
        with
        | (Done yielder, tr2) =>
            match RecordBatcher_New (batcher_options a) yielder processor
                    (tr2 ++ [LogInfo "Create batcher"])
            with
            | (Done batcher, tr3) =>
                (Done {| processor_ := processor; batcher_ := batcher |},
                 tr3)
            | (Failed e, tr3) => (Failed e, tr3)
            | (Undefined, tr3) => (Undefined, tr3)
            end
        | (Failed e, tr2) => (Failed e, tr2)
        | (Undefined, tr2) => (Undefined, tr2)
        end
    | (Failed e, tr1) => (Failed e, tr1)
    | (Undefined, tr1) => (Undefined, tr1)
    end.
Proof.
  intros Hs. unfold InputOp_new. run_M. rewrite Hs.
  rewrite <- app_assoc. cbn [app].
  destruct (parse_file_patterns a _) as [[ps|e|] tr1]; try reflexivity.
  rewrite new_yielders_run.
  destruct (compose_yielder _ _ _ _) as [[y|e|] tr2]; reflexivity.
Qed.

Lemma RecordBatcher_New_run (bopts : RecordBatcher.Options)
    (yielder : RecordYielder) (tr : list event) :
  RecordBatcher_New bopts yielder processor tr =
    if (length (RecordBatcher.bucket_upper_bound bopts)
        =? length (RecordBatcher.bucket_batch_limit bopts))%nat
    then (Done {| opts_ := bopts; yielder_ := yielder;
                  batcher_processor_ := processor |},
          tr ++ [NewRecordBatcher bopts yielder])
    else (Failed (ConfigurationError
            "bucket_upper_bound and bucket_batch_limit differ in length"),
          tr).
Proof.
  unfold RecordBatcher_New. destruct (_ =? _)%nat; reflexivity.
Qed.

End Construction.

(** Splitting loses nothing: putting the delimiter back between the tokens
    gives the text, and no token holds the delimiter. *)
Lemma append_cons (c : ascii) (s1 s2 : string) :
  String c s1 +:+ s2 = String c (s1 +:+ s2).
Proof. reflexivity. Qed.

Lemma append_empty_r (s : string) : s +:+ EmptyString = s.
Proof.
  induction s as [|c s IH]; [reflexivity|]. now rewrite append_cons, IH.
Qed.

Lemma append_assoc' (s1 s2 s3 : string) :
  (s1 +:+ s2) +:+ s3 = s1 +:+ (s2 +:+ s3).
Proof.
  induction s1 as [|c s1 IH]; [reflexivity|].
  now rewrite !append_cons, IH.
Qed.

Lemma split_from_concat (delim : ascii) (text token : string) :
  String.concat (String delim EmptyString)
    (str_util.split_from delim token text) = token +:+ text.
Proof.
  revert token. induction text as [|c rest IH]; intros token.
  - cbn [str_util.split_from String.concat]. now rewrite append_empty_r.
  - cbn [str_util.split_from].
    destruct (Ascii.eqb_spec c delim) as [->|Hne].
    + pose proof (split_from_nonempty delim rest EmptyString) as Hne.
      specialize (IH EmptyString).
      destruct (str_util.split_from delim EmptyString rest) as [|t ts];
        [contradiction|].
      change (String.concat (String delim EmptyString) (token :: t :: ts))
        with (token +:+ String delim EmptyString +:+
              String.concat (String delim EmptyString) (t :: ts)).
      rewrite IH. reflexivity.
    + rewrite IH, append_assoc'. reflexivity.
Qed.

Lemma Split_concat (text : string) (delim : ascii) :
  String.concat (String delim EmptyString) (str_util.Split text delim) = text.
Proof.
  destruct text as [|c rest]; [reflexivity|].
  cbn [str_util.Split]. now rewrite split_from_concat.
Qed.

Lemma has_char_append (c : ascii) (s1 s2 : string) :
  has_char c (s1 +:+ s2) = has_char c s1 || has_char c s2.
Proof.
  induction s1 as [|c' s1 IH]; [reflexivity|].
  rewrite append_cons. cbn [has_char]. rewrite IH. now rewrite orb_assoc.
Qed.

Lemma split_from_no_delim (delim : ascii) (text token : string) :
  has_char delim token = false ->
  Forall (fun t => has_char delim t = false)
    (str_util.split_from delim token text).
Proof.
  revert token. induction text as [|c rest IH]; intros token Htok.
  - cbn. now constructor.
  - cbn [str_util.split_from].
    destruct (Ascii.eqb c delim) eqn:Hc.
    + constructor; [exact Htok | now apply IH].
    + apply IH. rewrite has_char_append, Htok. cbn. now rewrite Hc.
Qed.

Lemma Split_no_delim (text : string) (delim : ascii) :
  Forall (fun t => has_char delim t = false) (str_util.Split text delim).
Proof.
  destruct text as [|c rest]; [constructor|].
  now apply split_from_no_delim.
Qed.

(** ** Claims about stream composition and the pattern list *)

(** C7: one stream is returned as it is, with no mixer constructed; two or
    more are handed, with the base seed and the weights, to a new weighted
    mixer. (No stream at all is outside defined behaviour.) *)
Theorem compose_yielder_cases (seed : Z) (weights : list float)
    (tr : list event) (y y' : RecordYielder) (ys : list RecordYielder) :
  compose_yielder seed [y] weights tr = (Done y, tr) /\
  compose_yielder seed (y :: y' :: ys) weights tr =
    (Done (WeightedMixYielder seed (y :: y' :: ys) weights),
     tr ++ [NewWeightedMixRecordYielder seed (y :: y' :: ys) weights]) /\
  compose_yielder seed [] weights tr = (Undefined, tr) /\
  forall streams : list RecordYielder,
    (compose_yielder seed streams weights tr).2 =
      tr ++ (if (1 <? length streams)%nat
             then [NewWeightedMixRecordYielder seed streams weights]
             else []).
Proof.
  repeat split. intros streams. unfold compose_yielder.
  destruct (1 <? length streams)%nat; [reflexivity|].
  destruct streams; cbn; now rewrite app_nil_r.
Qed.

(** C4: with no weights the pattern list is the raw string alone, commas
    or not, the fallback is logged, and the one yielder created from it is
    the stream handed on. *)
Theorem legacy_single_source (a : Attrs) (tr : list event)
    (Hw : input_source_weights a = []) :
  parse_file_patterns a tr =
    (Done [file_pattern a], tr ++ [LogInfo legacy_message]) /\
  new_yielders a 0 [file_pattern a] tr =
    (Done [BasicYielder (yielder_options a 0 (file_pattern a))],
     tr ++ [NewBasicRecordYielder (yielder_options a 0 (file_pattern a))]) /\
  compose_yielder (file_random_seed a)
    [BasicYielder (yielder_options a 0 (file_pattern a))]
    (input_source_weights a) tr =
    (Done (BasicYielder (yielder_options a 0 (file_pattern a))), tr).
Proof.
  split; [now apply parse_file_patterns_legacy|].
  split; [|reflexivity].
  rewrite new_yielders_run. reflexivity.
Qed.

Lemma legacy_single_source_witness :
  input_source_weights legacy_with_commas = [] /\
  (parse_file_patterns legacy_with_commas []).1 = Done ["a.txt,b.txt"%string].
Proof.
  split; [reflexivity|].
  now rewrite (proj1 (legacy_single_source legacy_with_commas [] eq_refl)).
Defined.

(** C3: with weights present the raw string is split on [','] into the
    pattern list (joining the patterns with [','] gives the raw string
    back); parsing fails, with a configuration error and nothing else done,
    exactly when the number of patterns differs from the number of
    weights; otherwise source [i] is a basic yielder on pattern [i] and
    weight [i] exists at the same position. *)
Theorem weighted_sources (a : Attrs) (tr : list event)
    (Hw : input_source_weights a <> []) :
  let file_patterns := str_util.Split (file_pattern a) "," in
  let weights := input_source_weights a in
  String.concat "," file_patterns = file_pattern a /\
  ((exists e, parse_file_patterns a tr = (Failed e, tr) /\
              is_configuration_error e = true)
   <-> length file_patterns <> length weights) /\
  (parse_file_patterns a tr = (Done file_patterns, tr)
   <-> length file_patterns = length weights) /\
  (length file_patterns = length weights ->
   exists yielders tr',
     new_yielders a 0 file_patterns tr = (Done yielders, tr') /\
     length yielders = length weights /\
     forall i : nat, (i < length file_patterns)%nat ->
       exists pattern weight,
         file_patterns !! i = Some pattern /\
         weights !! i = Some weight /\
         yielders !! i =
           Some (BasicYielder (yielder_options a (Z.of_nat i) pattern))).
Proof.
  intros ps ws. pose proof (parse_file_patterns_weighted a tr Hw) as Hparse.
  cbv zeta in Hparse. fold ps ws in Hparse.
  split; [apply Split_concat|].
  rewrite Hparse. clear Hparse.
  destruct (Nat.eqb_spec (length ps) (length ws)) as [Hlen|Hlen];
    (split; [|split]).
  - split; [intros (e & [=] & _) | contradiction].
  - now split.
  - intros _. eexists _, _. split; [apply new_yielders_run|].
    split; [now rewrite new_yielders_length|].
    intros i Hi.
    destruct (lookup_lt_is_Some_2 ps i Hi) as [p Hp].
    destruct (lookup_lt_is_Some_2 ws i ltac:(lia)) as [w Hw'].
    exists p, w. repeat split; try assumption.
    rewrite new_yielders_lookup, Hp. cbn. unfold yielder_at.
    now rewrite Z.add_0_l.
  - split; [intros _; exact Hlen | intros _; eexists; split; reflexivity].
  - split; [intros [=] | contradiction].
  - contradiction.
Qed.

Lemma weighted_sources_witness :
  (parse_file_patterns two_sources_auto_seed []).1 =
    Done ["a.txt"; "b.txt"]%string /\
  exists e, parse_file_patterns two_patterns_one_weight [] = (Failed e, []).
Proof.
  split.
  - destruct (weighted_sources two_sources_auto_seed [])
      as (_ & _ & Hok & _); [discriminate|].
    now rewrite (proj2 Hok eq_refl).
  - destruct (weighted_sources two_patterns_one_weight [])
      as (_ & Hfail & _); [discriminate|].
    destruct (proj2 Hfail) as (e & He & _); [discriminate|].
    now exists e.
Defined.

(** ** Claims about the whole constructor *)

Lemma yielder_events_create_no_batcher (a : Attrs) (i : Z)
    (ps : list string) :
  Forall (fun ev => creates_batcher ev = false)
    (imap (yielder_event_at a i) ps).
Proof.
  apply Forall_lookup_2. intros k ev Hk.
  rewrite list_lookup_imap in Hk.
  destruct (ps !! k); [|discriminate]. now injection Hk as <-.
Qed.

(** The stream handed to the batcher when the pattern list is not empty. *)
Lemma compose_yielder_run (seed : Z) (yielders : list RecordYielder)
    (weights : list float) (tr : list event) :
  yielders <> [] ->
  exists yielder,
    compose_yielder seed yielders weights tr =
      (Done yielder,
       tr ++ (if (1 <? length yielders)%nat
              then [NewWeightedMixRecordYielder seed yielders weights]
              else [])).
Proof.
  intros Hne. unfold compose_yielder.
  destruct (1 <? length yielders)%nat; [eexists; reflexivity|].
  destruct yielders as [|y ys]; [contradiction|].
  exists y. cbn. now rewrite app_nil_r.
Qed.

Section ConstructionClaims.

Context {RecordProcessorClass : Type}.
Variable processor : RecordProcessorClass.

(** Every failure past the sortedness check leaves the two events of the
    processor stage behind, and what follows creates no batcher. *)
Lemma InputOp_new_sorted_outcome (a : Attrs) (tr : list event) :
  is_sorted (bucket_upper_bound a) = true ->
  let parity_ok :=
    match input_source_weights a with
    | [] => true
    | _ :: _ => (length (str_util.Split (file_pattern a) ",")
                 =? length (input_source_weights a))%nat
    end in
  let lengths_ok :=
    (length (bucket_upper_bound a) =? length (bucket_batch_limit a))%nat in
  exists added,
    (InputOp_new processor a tr).2 =
      tr ++ LogInfo "Create RecordProcessor" :: NewRecordProcessor :: added
    /\
    match (InputOp_new processor a tr).1 with
    | Done op =>
        parity_ok = true /\ lengths_ok = true /\
        opts_ (batcher_ op) = batcher_options a
    | Failed e =>
        Forall (fun ev => creates_batcher ev = false) added /\
        (e = InvalidArgument parity_message /\ parity_ok = false \/
         (exists msg, e = ConfigurationError msg) /\
         parity_ok = true /\ lengths_ok = false)
    | Undefined => False
    end.
Proof.
  intros Hs parity_ok lengths_ok.
  rewrite InputOp_new_sorted by assumption.
  destruct (input_source_weights a) as [|w ws] eqn:Hw.
  - rewrite parse_file_patterns_legacy by assumption.
    cbn [imap compose_yielder length Nat.ltb Nat.leb]. run_M.
    rewrite RecordBatcher_New_run.
    change (length (RecordBatcher.bucket_upper_bound (batcher_options a))
            =? length (RecordBatcher.bucket_batch_limit (batcher_options a)))%nat
      with lengths_ok.
    destruct lengths_ok; cbn [fst snd]; rewrite <- ?app_assoc; cbn [app];
      eexists; (split; [reflexivity|]).
    + repeat split.
    + split; [repeat constructor | right; eauto].
  - rewrite parse_file_patterns_weighted by (rewrite Hw; discriminate).
    cbv zeta. rewrite Hw. fold parity_ok.
    destruct parity_ok eqn:Hp.
    + apply Nat.eqb_eq in Hp.
      assert (imap (yielder_at a 0) (str_util.Split (file_pattern a) ",")
              <> []) as Hne.
      { intros Hnil. apply (f_equal length) in Hnil.
        rewrite new_yielders_length, Hp in Hnil. discriminate. }
      destruct (compose_yielder_run (file_random_seed a) _ (w :: ws)
                  (tr ++ [LogInfo "Create RecordProcessor";
                          NewRecordProcessor]
                      ++ imap (yielder_event_at a 0)
                           (str_util.Split (file_pattern a) ","))
                  Hne) as [y Hy].
      rewrite app_assoc in Hy. rewrite Hy. rewrite RecordBatcher_New_run.
      change (length (RecordBatcher.bucket_upper_bound (batcher_options a))
              =? length (RecordBatcher.bucket_batch_limit
                           (batcher_options a)))%nat
        with lengths_ok.
      destruct lengths_ok; cbn [fst snd]; rewrite <- ?app_assoc;
        cbn [app]; eexists; (split; [reflexivity|]).
      * repeat split.
      * split; [|right; eauto].
        apply Forall_app. split;
          [apply yielder_events_create_no_batcher|].
        apply Forall_app. split; [|repeat constructor].
        destruct (1 <? _)%nat; repeat constructor.
    + cbn [fst snd]. exists []. split; [reflexivity|].
      split; [constructor | left; split; reflexivity].
Qed.

End ConstructionClaims.

Section ConstructorChecks.

Context {RecordProcessorClass : Type}.
Variable processor : RecordProcessorClass.

(** C5: the constructor fails with the "not sorted" error, having done
    nothing else, exactly when [bucket_upper_bound] is not in
    non-decreasing order; a non-decreasing sequence passes, and with the
    other checks met the construction succeeds with those bounds. *)
Theorem bucket_upper_bound_sortedness (a : Attrs) (tr : list event) :
  (InputOp_new processor a tr =
     (Failed (InvalidArgument "Bucket_upper_bound is not sorted"), tr)
   <-> ~ Sorted Z.le (bucket_upper_bound a)) /\
  (Sorted Z.le (bucket_upper_bound a) ->
   length (bucket_upper_bound a) = length (bucket_batch_limit a) ->
   input_source_weights a = [] \/
   length (str_util.Split (file_pattern a) ",")
     = length (input_source_weights a) ->
   exists op tr',
     InputOp_new processor a tr = (Done op, tr') /\
     RecordBatcher.bucket_upper_bound (opts_ (batcher_ op))
       = bucket_upper_bound a).
Proof.
  split.
  - rewrite <- is_sorted_false. split.
    + intros Hfail. destruct (is_sorted (bucket_upper_bound a)) eqn:Hs;
        [|reflexivity].
      destruct (InputOp_new_sorted_outcome processor a tr Hs)
        as (added & Htr & _).
      rewrite Hfail in Htr. cbn [snd] in Htr.
      apply (f_equal length) in Htr. rewrite length_app in Htr.
      cbn [length] in Htr. lia.
    + apply InputOp_new_unsorted.
  - intros Hs Hlen Hparity. apply is_sorted_Sorted in Hs.
    destruct (InputOp_new_sorted_outcome processor a tr Hs)
      as (added & Htr & Hout).
    apply Nat.eqb_eq in Hlen.
    assert (match input_source_weights a with
            | [] => true
            | _ :: _ =>
                (length (str_util.Split (file_pattern a) ",")
                 =? length (input_source_weights a))%nat
            end = true) as Hp.
    { destruct Hparity as [-> | Heq]; [reflexivity|].
      destruct (input_source_weights a); [reflexivity|].
      now apply Nat.eqb_eq. }
    destruct (InputOp_new processor a tr) as [[op|e|] tr'];
      cbn [fst snd] in *.
    + exists op, tr'. split; [reflexivity|].
      destruct Hout as (_ & _ & ->). reflexivity.
    + destruct Hout as (_ & [[_ Hno] | (_ & _ & Hno)]); congruence.
    + contradiction.
Qed.

(** C6: when [bucket_upper_bound] and [bucket_batch_limit] differ in
    length the construction fails with a configuration error, and nothing
    it did before failing created a batcher, so no record is pulled. *)
Theorem bucket_length_mismatch (a : Attrs) (tr : list event)
    (Hlen : length (bucket_upper_bound a)
            <> length (bucket_batch_limit a)) :
  exists e added,
    InputOp_new processor a tr = (Failed e, tr ++ added) /\
    is_configuration_error e = true /\
    Forall (fun ev => creates_batcher ev = false) added.
Proof.
  destruct (is_sorted (bucket_upper_bound a)) eqn:Hs.
  - destruct (InputOp_new_sorted_outcome processor a tr Hs)
      as (added & Htr & Hout).
    apply Nat.eqb_neq in Hlen.
    destruct (InputOp_new processor a tr) as [[op|e|] tr'];
      cbn [fst snd] in *.
    + destruct Hout as (_ & Hno & _). congruence.
    + exists e, (LogInfo "Create RecordProcessor"
                 :: NewRecordProcessor :: added).
      split; [now rewrite Htr|].
      destruct Hout as (Hnb & Hwhy). split.
      * destruct Hwhy as [[-> _] | ([msg ->] & _)]; reflexivity.
      * repeat (constructor; [reflexivity|]). exact Hnb.
    + contradiction.
  - exists (InvalidArgument "Bucket_upper_bound is not sorted"), [].
    rewrite app_nil_r. split; [now apply InputOp_new_unsorted|].
    split; [reflexivity | constructor].
Qed.

(** C9: the constructor never takes the front of an empty yielder list.
    A pattern list that parsing produces is not empty (the raw string
    alone without weights; with weights, as many patterns as weights, and
    an empty split fails the parity check), the loop makes one yielder
    per pattern, and composition of a non-empty list is defined. *)
Theorem yielders_front_defined (a : Attrs) (tr : list event) :
  is_defined (InputOp_new processor a tr).1 = true /\
  (forall file_patterns tr1,
     parse_file_patterns a tr = (Done file_patterns, tr1) ->
     file_patterns <> [] /\
     exists yielders tr2,
       new_yielders a 0 file_patterns tr1 = (Done yielders, tr2) /\
       length yielders = length file_patterns /\
       yielders <> [] /\
       is_defined (compose_yielder (file_random_seed a) yielders
                     (input_source_weights a) tr2).1 = true) /\
  (input_source_weights a = [] ->
   exists tr1, parse_file_patterns a tr = (Done [file_pattern a], tr1)) /\
  (input_source_weights a <> [] ->
   str_util.Split (file_pattern a) "," = [] ->
   exists e, parse_file_patterns a tr = (Failed e, tr)).
Proof.
  split; [|split; [|split]].
  - destruct (is_sorted (bucket_upper_bound a)) eqn:Hs.
    + destruct (InputOp_new_sorted_outcome processor a tr Hs)
        as (added & _ & Hout).
      destruct (InputOp_new processor a tr).1; [reflexivity.. | contradiction].
    + now rewrite InputOp_new_unsorted.
  - intros ps tr1 Hparse.
    pose proof (parse_file_patterns_nonempty _ _ _ _ Hparse) as Hne.
    split; [exact Hne|].
    eexists _, _. split; [apply new_yielders_run|].
    split; [apply new_yielders_length|].
    assert (imap (yielder_at a 0) ps <> []) as Hys.
    { intros Hnil. apply (f_equal length) in Hnil.
      rewrite new_yielders_length in Hnil. now destruct ps. }
    split; [exact Hys|].
    pose proof (compose_yielder_defined (file_random_seed a) _
                  (input_source_weights a)
                  (tr1 ++ imap (yielder_event_at a 0) ps) Hys) as Hdef.
    destruct (compose_yielder _ _ _ _).1; [reflexivity.. | contradiction].
  - intros Hw. eexists. now apply parse_file_patterns_legacy.
  - intros Hw Hnil. rewrite parse_file_patterns_weighted by assumption.
    cbv zeta. rewrite Hnil. destruct (input_source_weights a);
      [contradiction|]. eexists. reflexivity.
Qed.

End ConstructorChecks.

(** ** [Compute] *)

Section ComputeClaims.

Context {RecordProcessorClass : Type} {Tensor : Type}.
Variable GetNext : Batcher RecordProcessorClass -> Z * list Tensor.

Local Abbreviation Ctx := (@OpKernelContext Tensor).

Lemma set_outputs_frame (batch : list Tensor) :
  forall (ctx : Ctx) (i : Z),
    num_outputs (set_outputs ctx i batch) = num_outputs ctx /\
    status (set_outputs ctx i batch) = status ctx.
Proof.
  induction batch as [|t rest IH]; intros ctx i; cbn [set_outputs];
    [now split|].
  destruct (IH (set_output ctx i t) (i + 1)) as [-> ->]. now split.
Qed.

(** Slots outside [i, i + batch.size()) are left alone. *)
Lemma set_outputs_outside (batch : list Tensor) :
  forall (ctx : Ctx) (i k : Z),
    k < i \/ i + Z.of_nat (length batch) <= k ->
    outputs (set_outputs ctx i batch) !! k = outputs ctx !! k.
Proof.
  induction batch as [|t rest IH]; intros ctx i k Hk; cbn [set_outputs];
    [reflexivity|].
  rewrite IH by (cbn [length] in Hk; lia).
  cbn [set_output outputs]. apply lookup_insert_ne.
  cbn [length] in Hk. lia.
Qed.

(** Slot [i + n] holds element [n] of the batch. *)
Lemma set_outputs_inside (batch : list Tensor) :
  forall (ctx : Ctx) (i : Z) (n : nat) (t : Tensor),
    batch !! n = Some t ->
    outputs (set_outputs ctx i batch) !! (i + Z.of_nat n) = Some t.
Proof.
  induction batch as [|t0 rest IH]; intros ctx i n t Hn; [discriminate|].
  cbn [set_outputs]. destruct n as [|n].
  - injection Hn as ->. rewrite set_outputs_outside by lia.
    cbn [set_output outputs]. rewrite Z.add_0_r. apply lookup_insert_eq.
  - replace (i + Z.of_nat (S n)) with (i + 1 + Z.of_nat n) by lia.
    now apply IH.
Qed.

(** C2: when the number of tensors in the batch differs from the number
    of outputs the caller expects, [Compute] records an internal error and
    sets no output; when they agree it leaves the status alone and sets
    output [i] to element [i] of the batch, for every [i] below the batch
    size, and no other slot. *)
Theorem Compute_arity_check (op : InputOp) (ctx : Ctx) :
  let batch := (GetNext (batcher_ op)).2 in
  Z.of_nat (length batch) <= Int.int32_max ->
  (Z.of_nat (length batch) <> num_outputs ctx ->
   status (Compute GetNext op ctx) =
     Some (Internal ("Unexpected batch: " +:+ pretty (length batch))) /\
   outputs (Compute GetNext op ctx) = outputs ctx) /\
  (Z.of_nat (length batch) = num_outputs ctx ->
   status (Compute GetNext op ctx) = status ctx /\
   (forall (i : nat) (t : Tensor),
      batch !! i = Some t ->
      outputs (Compute GetNext op ctx) !! Z.of_nat i = Some t) /\
   (forall k : Z,
      k < 0 \/ num_outputs ctx <= k ->
      outputs (Compute GetNext op ctx) !! k = outputs ctx !! k)).
Proof.
  intros batch Hsize. unfold Compute. subst batch.
  destruct (GetNext (batcher_ op)) as [bucket_id batch]. cbn [snd] in *.
  rewrite int_of_size_small by assumption.
  destruct (Z.eqb_spec (Z.of_nat (length batch)) (num_outputs ctx))
    as [Heq|Hne]; split; try contradiction.
  - intros _.
    split; [apply set_outputs_frame|]. split.
    + intros i t Hi. now apply (set_outputs_inside batch ctx 0 i t).
    + intros k Hk. apply set_outputs_outside. lia.
  - intros _. split; reflexivity.
Qed.

End ComputeClaims.

(** ** The claims at the sample configurations *)

Lemma Compute_arity_check_witness :
  status (Compute sample_GetNext sample_op (sample_ctx 3)) =
    Some (Internal "Unexpected batch: 2") /\
  outputs (Compute sample_GetNext sample_op (sample_ctx 3)) = ∅ /\
  outputs (Compute sample_GetNext sample_op (sample_ctx 2)) !! 1 =
    Some "t1"%string.
Proof.
  destruct (Compute_arity_check sample_GetNext sample_op (sample_ctx 3))
    as [Hbad _]; [cbn; unfold Int.int32_max; lia|].
  destruct Hbad as [Hstatus Houtputs]; [cbn; lia|].
  destruct (Compute_arity_check sample_GetNext sample_op (sample_ctx 2))
    as [_ Hgood]; [cbn; unfold Int.int32_max; lia|].
  destruct Hgood as (_ & Hset & _); [reflexivity|].
  split; [exact Hstatus|]. split; [exact Houtputs|].
  exact (Hset 1%nat "t1"%string eq_refl).
Defined.

Lemma bucket_upper_bound_sortedness_witness :
  InputOp_new tt unsorted_bounds [] =
    (Failed (InvalidArgument "Bucket_upper_bound is not sorted"), []) /\
  exists op tr', InputOp_new tt legacy_with_commas [] = (Done op, tr').
Proof.
  split.
  - apply (proj1 (bucket_upper_bound_sortedness tt unsorted_bounds [])).
    apply is_sorted_false. reflexivity.
  - destruct (proj2 (bucket_upper_bound_sortedness tt legacy_with_commas []))
      as (op & tr' & Hop & _).
    + apply is_sorted_Sorted. reflexivity.
    + reflexivity.
    + left. reflexivity.
    + now exists op, tr'.
Defined.

Lemma bucket_length_mismatch_witness :
  exists e added,
    InputOp_new tt mismatched_limits [] = (Failed e, added) /\
    is_configuration_error e = true /\
    Forall (fun ev => creates_batcher ev = false) added.
Proof.
  apply (bucket_length_mismatch tt mismatched_limits []).
  discriminate.
Defined.

(** The counterexample of C1 inside a construction: with two weighted
    sources and the largest base seed, the second yielder is created with
    the seed [-8]. *)
Example max_seed_second_source :
  exists op tr,
    InputOp_new tt two_sources_max_seed [] = (Done op, tr) /\
    exists first second weights,
      yielder_ (batcher_ op) =
        WeightedMixYielder Int.int64_max
          [BasicYielder first; BasicYielder second] weights /\
      BasicRecordYielder.seed first = 7 /\
      BasicRecordYielder.seed second = -8.
Proof.
  eexists _, _. split; [vm_compute; reflexivity|].
  eexists _, _, _. split; [reflexivity|]. split; reflexivity.
Qed.

(** ** More on the seeds *)

Lemma seed_modulus_value : seed_modulus = 2147483646.
Proof. reflexivity. Qed.

(** X2: while the sum [s + i] stays inside the modulus on either side, a
    nonzero base seed gives source [i] the seed [s + i] itself, except that
    a zero sum gives 1; so sources with distinct nonzero sums get distinct
    seeds. *)
Theorem derive_seed_small (s i j : Z) (Hs : s <> 0)
    (Hi : - seed_modulus < s + i < seed_modulus)
    (Hj : - seed_modulus < s + j < seed_modulus) :
  derive_seed s i = (if s + i =? 0 then 1 else s + i) /\
  (s + i <> 0 -> s + j <> 0 -> derive_seed s i = derive_seed s j -> i = j).
Proof.
  rewrite seed_modulus_value in Hi, Hj.
  assert (forall k, -2147483646 < s + k < 2147483646 ->
            derive_seed s k = if s + k =? 0 then 1 else s + k) as Hsmall.
  { intros k Hk. rewrite derive_seed_exact;
      [| assumption | unfold Int.in_int64, Int.int64_min, Int.int64_max; lia].
    cbv zeta. rewrite seed_modulus_value.
    assert (Z.rem (s + k) 2147483646 = s + k) as ->; [|reflexivity].
    destruct (Z.le_gt_cases 0 (s + k)) as [Hpos|Hneg].
    - apply Z.rem_small. lia.
    - rewrite <- (Z.opp_involutive (s + k)), Z.rem_opp_l by lia.
      rewrite Z.rem_small by lia. reflexivity. }
  split; [now apply Hsmall|].
  intros Hi0 Hj0. rewrite !Hsmall by assumption.
  apply Z.eqb_neq in Hi0 as ->. apply Z.eqb_neq in Hj0 as ->. lia.
Qed.

Lemma derive_seed_small_witness :
  derive_seed 7 2 = 9 /\ derive_seed (-3) 3 = 1 /\ derive_seed (-5) 2 = -3.
Proof.
  split; [|split].
  - refine (proj1 (derive_seed_small 7 2 2 _ _ _));
      [lia | rewrite seed_modulus_value; lia..].
  - refine (proj1 (derive_seed_small (-3) 3 3 _ _ _));
      [lia | rewrite seed_modulus_value; lia..].
  - refine (proj1 (derive_seed_small (-5) 2 2 _ _ _));
      [lia | rewrite seed_modulus_value; lia..].
Defined.

(** X3: seeds can collide. When [s + i] is a positive multiple of the
    modulus, source [i] gets 1 through the adjustment and source [i + 1]
    gets 1 as its remainder. *)
Theorem derive_seed_collision (s i : Z) (Hs : 0 < s) (Hi : 0 <= i)
    (Hsum : s + i + 1 <= Int.int64_max)
    (Hmul : (s + i) mod seed_modulus = 0) :
  derive_seed s i = 1 /\ derive_seed s (i + 1) = 1.
Proof.
  assert (0 < seed_modulus) as HM by (rewrite seed_modulus_value; lia).
  split.
  - rewrite derive_seed_exact;
      [| lia | unfold Int.in_int64, Int.int64_min; lia].
    cbv zeta. rewrite Z.rem_mod_nonneg, Hmul by lia. reflexivity.
  - rewrite derive_seed_exact;
      [| lia | unfold Int.in_int64, Int.int64_min; lia].
    cbv zeta. rewrite Z.rem_mod_nonneg by lia.
    replace (s + (i + 1)) with (s + i + 1) by lia.
    rewrite Z.add_mod, Hmul by lia. rewrite seed_modulus_value. reflexivity.
Qed.

Lemma derive_seed_collision_witness :
  derive_seed 2147483646 0 = 1 /\ derive_seed 2147483646 (0 + 1) = 1.
Proof.
  apply (derive_seed_collision 2147483646 0);
    [lia | lia | unfold Int.int64_max; lia | reflexivity].
Defined.

(** X4: when a positive base seed and the index add up to more than
    [INT64_MAX], the wrapped sum is negative, so the derived seed is
    negative, or 1 when the wrapped sum is a multiple of the modulus; in
    both cases it is not [(s + i) mod (INT32_MAX - 1)] adjusted. *)
Theorem derive_seed_overflow (s i : Z)
    (Hs : 0 < s <= Int.int64_max) (Hi : 0 <= i <= Int.int32_max)
    (Hov : Int.int64_max < s + i) :
  (derive_seed s i < 0 \/ derive_seed s i = 1) /\
  1 <= spec_derive s i /\
  (derive_seed s i =? spec_derive s i) = false.
Proof.
  unfold Int.int64_max, Int.int32_max in *.
  assert (Int.wrap64 (s + i) = s + i - 2 ^ 64) as Hwrap.
  { unfold Int.wrap64.
    replace (s + i + 2 ^ 63) with (s + i - 2 ^ 63 + 1 * 2 ^ 64) by lia.
    rewrite Z_mod_plus_full, Z.mod_small; lia. }
  assert (derive_seed s i =
          if Z.rem (s + i - 2 ^ 64) seed_modulus =? 0 then 1
          else Z.rem (s + i - 2 ^ 64) seed_modulus) as Hcode.
  { rewrite derive_seed_unfold by lia. cbv zeta. now rewrite Hwrap. }
  assert (seed_modulus <> 0) as HM by (rewrite seed_modulus_value; lia).
  pose proof (Z.rem_nonpos (s + i - 2 ^ 64) seed_modulus HM ltac:(lia))
    as Hrem.
  assert (spec_derive s i =
          if (s + i) mod seed_modulus =? 0 then 1
          else (s + i) mod seed_modulus) as Hspec.
  { unfold spec_derive. fold seed_modulus. cbv zeta.
    destruct (Z.eqb_spec ((s + i) mod seed_modulus) 0) as [->|];
      reflexivity. }
  pose proof (Z.mod_pos_bound (s + i) seed_modulus
                ltac:(rewrite seed_modulus_value; lia)) as Hmod.
  assert (1 <= spec_derive s i) as Hspec1.
  { rewrite Hspec. destruct (Z.eqb_spec ((s + i) mod seed_modulus) 0); lia. }
  destruct (Z.eqb_spec (Z.rem (s + i - 2 ^ 64) seed_modulus) 0)
    as [Hzero|Hnz].
  - split; [right; exact Hcode|]. split; [exact Hspec1|].
    apply Z.eqb_neq. rewrite Hcode, Hspec.
    apply Z.rem_divide in Hzero; [|exact HM].
    apply Z.mod_divide in Hzero; [|exact HM].
    assert ((s + i) mod seed_modulus = 16) as ->.
    { replace (s + i) with (s + i - 2 ^ 64 + 2 ^ 64) by lia.
      rewrite Z.add_mod, Hzero by exact HM.
      rewrite seed_modulus_value. reflexivity. }
    discriminate.
  - split; [left; rewrite Hcode; lia|]. split; [exact Hspec1|].
    apply Z.eqb_neq. rewrite Hcode. lia.
Qed.

Lemma derive_seed_overflow_witness :
  (derive_seed Int.int64_max 1 < 0 \/ derive_seed Int.int64_max 1 = 1) /\
  1 <= spec_derive Int.int64_max 1 /\
  (derive_seed Int.int64_max 1 =? spec_derive Int.int64_max 1) = false.
Proof.
  apply (derive_seed_overflow Int.int64_max 1);
    unfold Int.int64_max, Int.int32_max; lia.
Defined.

(** ** More on the sortedness check *)

Lemma is_sorted_cons (x : Z) (rest : list Z) :
  is_sorted (x :: rest) =
    match rest with
    | [] => true
    | y :: _ => negb (y <? x) && is_sorted rest
    end.
Proof. reflexivity. Qed.

(** X5: the check that adjacent bounds do not decrease accepts exactly
    the sequences ordered throughout: every earlier bound is at most every
    later one. Equal bounds, a single bound and no bound at all pass. *)
Theorem is_sorted_lookup (v : list Z) :
  is_sorted v = true <->
  forall (i j : nat) (x y : Z),
    (i <= j)%nat -> v !! i = Some x -> v !! j = Some y -> x <= y.
Proof.
  induction v as [|x rest IH].
  - split; [intros _ i j a b _ Hi; discriminate | reflexivity].
  - rewrite is_sorted_cons. destruct rest as [|y rest'].
    + split; [|reflexivity].
      intros _ [|i] [|j] a b _ Hi Hj; try discriminate.
      injection Hi as <-. injection Hj as <-. lia.
    + rewrite andb_true_iff, negb_true_iff, Z.ltb_ge, IH. split.
      * intros [Hxy Hrest] [|i] [|j] a b Hij Hi Hj.
        -- injection Hi as <-. injection Hj as <-. lia.
        -- injection Hi as <-. cbn in Hj.
           specialize (Hrest 0%nat j y b ltac:(lia) eq_refl Hj). lia.
        -- lia.
        -- cbn in Hi, Hj. apply (Hrest i j a b); [lia | assumption..].
      * intros Hall. split.
        -- apply (Hall 0%nat 1%nat x y); [lia | reflexivity..].
        -- intros i j a b Hij Hi Hj.
           apply (Hall (S i) (S j) a b); [lia | assumption..].
Qed.

(** ** More on the pattern list *)

Lemma split_from_length (delim : ascii) (text token : string) :
  length (str_util.split_from delim token text) = S (count_char delim text).
Proof.
  revert token. induction text as [|c rest IH]; intros token;
    [reflexivity|].
  cbn [str_util.split_from count_char].
  destruct (Ascii.eqb c delim); [cbn [length] |]; now rewrite IH.
Qed.

Lemma Split_length (text : string) (delim : ascii) :
  length (str_util.Split text delim) =
    match text with
    | EmptyString => O
    | _ => S (count_char delim text)
    end.
Proof.
  destruct text as [|c rest]; [reflexivity|]. apply split_from_length.
Qed.

(** A text without the delimiter is its own single token. *)
Lemma split_from_no_char (delim : ascii) (text token : string) :
  has_char delim text = false ->
  str_util.split_from delim token text = [token +:+ text].
Proof.
  revert token. induction text as [|c rest IH]; intros token Hno.
  - cbn. now rewrite append_empty_r.
  - cbn [has_char] in Hno. apply orb_false_iff in Hno as [Hc Hrest].
    cbn [str_util.split_from]. rewrite Hc, IH by assumption.
    now rewrite append_assoc'.
Qed.

(** X6: with weights present, the pattern list is produced exactly when
    the raw string is not empty and holds one comma fewer than there are
    weights; empty patterns between, before or after commas count. *)
Theorem weighted_pattern_count (a : Attrs) (tr : list event)
    (Hw : input_source_weights a <> []) :
  (exists file_patterns,
     parse_file_patterns a tr = (Done file_patterns, tr))
  <-> file_pattern a <> EmptyString /\
      S (count_char "," (file_pattern a)) = length (input_source_weights a).
Proof.
  rewrite parse_file_patterns_weighted by assumption. cbv zeta.
  rewrite Split_length.
  destruct (file_pattern a) as [|c rest] eqn:Hfp.
  - destruct (input_source_weights a) as [|w ws]; [contradiction|].
    cbn [length Nat.eqb]. split; [intros [ps [=]] | intros [[] _]; reflexivity].
  - destruct (Nat.eqb_spec (S (count_char "," (String c rest)))
                (length (input_source_weights a))) as [Heq|Hne].
    + split; [intros _; split; [discriminate | exact Heq] | eauto].
    + split; [intros [ps [=]] | intros [_ Heq]; contradiction].
Qed.

Lemma weighted_pattern_count_witness :
  exists file_patterns,
    parse_file_patterns two_sources_auto_seed [] = (Done file_patterns, []).
Proof.
  apply (weighted_pattern_count two_sources_auto_seed []);
    [discriminate | split; [discriminate | reflexivity]].
Defined.

(** X10: a single weight is accepted and never used. With one weight and
    a non-empty raw string without comma, the pattern list is the raw
    string alone, nothing is logged, and the stream composed from its
    yielder is that yielder, as without weights. *)
Theorem single_weight_unused (a : Attrs) (tr : list event) (w : float)
    (Hw : input_source_weights a = [w])
    (Hne : file_pattern a <> EmptyString)
    (Hcomma : has_char "," (file_pattern a) = false) :
  parse_file_patterns a tr = (Done [file_pattern a], tr) /\
  new_yielders a 0 [file_pattern a] tr =
    (Done [BasicYielder (yielder_options a 0 (file_pattern a))],
     tr ++ [NewBasicRecordYielder (yielder_options a 0 (file_pattern a))]) /\
  compose_yielder (file_random_seed a)
    [BasicYielder (yielder_options a 0 (file_pattern a))]
    (input_source_weights a) tr =
    (Done (BasicYielder (yielder_options a 0 (file_pattern a))), tr).
Proof.
  split; [|split; [now rewrite new_yielders_run | reflexivity]].
  rewrite parse_file_patterns_weighted by (rewrite Hw; discriminate).
  cbv zeta. rewrite Hw.
  assert (str_util.Split (file_pattern a) "," = [file_pattern a]) as ->.
  { destruct (file_pattern a) as [|c rest] eqn:Hfp; [contradiction|].
    cbn [str_util.Split]. now rewrite split_from_no_char. }
  reflexivity.
Qed.

Lemma single_weight_unused_witness :
  parse_file_patterns one_weighted_source [] = (Done ["a.txt"%string], []).
Proof.
  refine (proj1 (single_weight_unused one_weighted_source [] 0.5%float
                   eq_refl _ eq_refl)).
  discriminate.
Defined.

(** ** More on the whole constructor *)

Lemma compose_yielder_nonempty (seed : Z) (yielders : list RecordYielder)
    (weights : list float) (tr : list event) :
  yielders <> [] ->
  compose_yielder seed yielders weights tr =
    (Done (composed_stream seed yielders weights),
     tr ++ (if (1 <? length yielders)%nat
            then [NewWeightedMixRecordYielder seed yielders weights]
            else [])).
Proof.
  intros Hne. destruct yielders as [|y [|y' ys]]; [contradiction | |].
  - cbn. now rewrite app_nil_r.
  - reflexivity.
Qed.

Section ConstructorRuns.

Context {RecordProcessorClass : Type}.
Variable processor : RecordProcessorClass.

(** X7: a weight count that does not match the pattern count is found
    after the processor is created and before any yielder is: with sorted
    bounds the constructor fails with the parity error, and the processor
    stage is all it has done. *)
Theorem parity_failure_point (a : Attrs) (tr : list event)
    (Hs : is_sorted (bucket_upper_bound a) = true)
    (Hw : input_source_weights a <> [])
    (Hlen : length (str_util.Split (file_pattern a) ",")
            <> length (input_source_weights a)) :
  InputOp_new processor a tr =
    (Failed (InvalidArgument parity_message),
     tr ++ [LogInfo "Create RecordProcessor"; NewRecordProcessor]).
Proof.
  rewrite InputOp_new_sorted by assumption.
  rewrite parse_file_patterns_weighted by assumption. cbv zeta.
  apply Nat.eqb_neq in Hlen. now rewrite Hlen.
Qed.

(** A construction that succeeds has passed every check, built the kernel
    around the composed stream, and left the events of every stage. *)
Lemma InputOp_new_done_run (a : Attrs) (tr tr' : list event)
    (op : @InputOp RecordProcessorClass) :
  InputOp_new processor a tr = (Done op, tr') ->
  is_sorted (bucket_upper_bound a) = true /\
  source_patterns a <> [] /\
  (input_source_weights a <> [] ->
   length (source_patterns a) = length (input_source_weights a)) /\
  op = {| processor_ := processor;
          batcher_ :=
            {| opts_ := batcher_options a;
               yielder_ :=
                 composed_stream (file_random_seed a)
                   (imap (yielder_at a 0) (source_patterns a))
                   (input_source_weights a);
               batcher_processor_ := processor |} |} /\
  tr' = tr ++ construction_events a.
Proof.
  intros Hdone.
  destruct (is_sorted (bucket_upper_bound a)) eqn:Hs;
    [|rewrite InputOp_new_unsorted in Hdone by assumption; discriminate].
  rewrite InputOp_new_sorted in Hdone by assumption.
  split; [reflexivity|].
  assert (forall ps logs tr1,
    source_patterns a = ps -> ps <> [] ->
    match input_source_weights a with
    | [] => [LogInfo legacy_message]
    | _ :: _ => []
    end = logs ->
    tr1 = tr ++ [LogInfo "Create RecordProcessor"; NewRecordProcessor]
             ++ logs ->
    match
      compose_yielder (file_random_seed a) (imap (yielder_at a 0) ps)
        (input_source_weights a)
        (tr1 ++ imap (yielder_event_at a 0) ps)
    with
    | (Done yielder, tr2) =>
        match RecordBatcher_New (batcher_options a) yielder processor
                (tr2 ++ [LogInfo "Create batcher"])
        with
        | (Done batcher, tr3) =>
            (Done {| processor_ := processor; batcher_ := batcher |}, tr3)
        | (Failed e, tr3) => (Failed e, tr3)
        | (Undefined, tr3) => (Undefined, tr3)
        end
    | (Failed e, tr2) => (Failed e, tr2)
    | (Undefined, tr2) => (Undefined, tr2)
    end = (Done op, tr') ->
    op = {| processor_ := processor;
            batcher_ :=
              {| opts_ := batcher_options a;
                 yielder_ :=
                   composed_stream (file_random_seed a)
                     (imap (yielder_at a 0) ps) (input_source_weights a);
                 batcher_processor_ := processor |} |} /\
    tr' = tr ++ construction_events a) as Hrest.
  { intros ps logs tr1 Hps Hne Hlogs -> Hrun.
    assert (imap (yielder_at a 0) ps <> []) as Hys.
    { intros Hnil. apply (f_equal length) in Hnil.
      rewrite new_yielders_length in Hnil. now destruct ps. }
    rewrite compose_yielder_nonempty in Hrun by assumption.
    rewrite RecordBatcher_New_run in Hrun.
    destruct (_ =? _)%nat in Hrun; [|discriminate].
    injection Hrun as <- <-. split; [reflexivity|].
    unfold construction_events. cbv zeta. rewrite Hps, Hlogs.
    rewrite <- !app_assoc. reflexivity. }
  destruct (input_source_weights a) as [|w ws] eqn:Hw.
  - rewrite parse_file_patterns_legacy in Hdone by assumption.
    assert (source_patterns a = [file_pattern a]) as Hps
      by (unfold source_patterns; now rewrite Hw).
    rewrite Hps. split; [discriminate|]. split; [intros []; reflexivity|].
    refine (Hrest _ _ _ Hps _ eq_refl _ Hdone);
      [discriminate | now rewrite <- app_assoc].
  - rewrite parse_file_patterns_weighted in Hdone
      by (rewrite Hw; discriminate).
    cbv zeta in Hdone. rewrite Hw in Hdone.
    assert (source_patterns a = str_util.Split (file_pattern a) ",") as Hps
      by (unfold source_patterns; now rewrite Hw).
    rewrite Hps.
    destruct (Nat.eqb_spec (length (str_util.Split (file_pattern a) ","))
                (length (w :: ws))) as [Hlen|]; [|discriminate].
    assert (str_util.Split (file_pattern a) "," <> []) as Hne
      by (intros Hnil; rewrite Hnil in Hlen; discriminate).
    split; [exact Hne|]. split; [intros _; exact Hlen|].
    refine (Hrest _ _ _ Hps Hne eq_refl _ Hdone). now rewrite app_nil_r.
Qed.

End ConstructorRuns.

Section ConstructedKernel.

Context {RecordProcessorClass : Type}.
Variable processor : RecordProcessorClass.


(** X9: a successful construction does its work in this order: the
    processor; one basic yielder per pattern, in the order of the patterns;
    the mixer, when there are two patterns or more; the batcher last. The
    fallback to a single unsplit pattern is logged before the yielders. *)
Theorem construction_order (a : Attrs) (tr tr' : list event)
    (op : @InputOp RecordProcessorClass)
    (Hdone : InputOp_new processor a tr = (Done op, tr')) :
  tr' = tr ++ construction_events a /\
  filter (fun ev => creates_batcher ev = true) (construction_events a) =
    [NewRecordBatcher (batcher_options a) (yielder_ (batcher_ op))] /\
  last (construction_events a) =
    Some (NewRecordBatcher (batcher_options a) (yielder_ (batcher_ op))).
Proof.
  destruct (InputOp_new_done_run processor a tr tr' op Hdone)
    as (_ & _ & _ & -> & ->).
  cbn [batcher_ yielder_]. split; [reflexivity|].
  unfold construction_events. cbv zeta.
  set (ps := source_patterns a). set (ys := imap (yielder_at a 0) ps).
  split.
  - rewrite !filter_app.
    assert (forall l, Forall (fun ev => creates_batcher ev = false) l ->
              filter (fun ev => creates_batcher ev = true) l = []) as Hnone.
    { intros l Hl. induction Hl as [|ev l Hev _ IH]; [reflexivity|].
      rewrite filter_cons. destruct (decide _) as [Heq|_]; [congruence|].
      exact IH. }
    rewrite (Hnone (imap _ ps)) by apply yielder_events_create_no_batcher.
    rewrite (Hnone (match input_source_weights a with
                    | [] => _ | _ :: _ => _ end))
      by (destruct (input_source_weights a); repeat constructor).
    rewrite (Hnone (if (1 <? length ys)%nat then _ else _))
      by (destruct (1 <? length ys)%nat; repeat constructor).
    reflexivity.
  - rewrite !app_assoc.
    change [LogInfo "Create batcher";
            NewRecordBatcher (batcher_options a)
              (composed_stream (file_random_seed a) ys
                 (input_source_weights a))]
      with ([LogInfo "Create batcher"] ++
            [NewRecordBatcher (batcher_options a)
               (composed_stream (file_random_seed a) ys
                  (input_source_weights a))]).
    rewrite app_assoc. apply last_snoc.
Qed.

(** X11: a mixer in a successfully constructed kernel is well formed: it
    has at least two children and exactly one weight per child, its seed
    is the base seed, and child [k] is the basic yielder on pattern [k]
    with the seed derived for index [k]. *)
Theorem constructed_mixer (a : Attrs) (tr tr' : list event)
    (op : @InputOp RecordProcessorClass) (seed : Z)
    (children : list RecordYielder) (weights : list float)
    (Hdone : InputOp_new processor a tr = (Done op, tr'))
    (Hmix : yielder_ (batcher_ op) =
            WeightedMixYielder seed children weights) :
  seed = file_random_seed a /\
  weights = input_source_weights a /\
  length children = length weights /\
  (2 <= length children)%nat /\
  forall (k : nat) (child : RecordYielder),
    children !! k = Some child ->
    exists pattern,
      source_patterns a !! k = Some pattern /\
      child =
        BasicYielder
          {| BasicRecordYielder.file_pattern := pattern;
             BasicRecordYielder.seed :=
               derive_seed (file_random_seed a) (Z.of_nat k);
             BasicRecordYielder.bufsize := file_buffer_size a;
             BasicRecordYielder.parallelism := file_parallelism a |}.
Proof.
  destruct (InputOp_new_done_run processor a tr tr' op Hdone)
    as (_ & Hne & Hlen & -> & _).
  cbn [batcher_ yielder_] in Hmix.
  destruct (source_patterns a) as [|p [|p' ps]] eqn:Hps;
    [contradiction | discriminate |].
  remember (imap (yielder_at a 0) (p :: p' :: ps)) as ys eqn:Hys.
  assert (length ys = S (S (length ps))) as Hl
    by (subst ys; now rewrite new_yielders_length).
  destruct ys as [|y0 [|y1 ys']]; [discriminate.. |].
  cbn [composed_stream] in Hmix. injection Hmix as <- <- <-.
  rewrite Hys. clear Hl Hys.
  assert (input_source_weights a <> []) as Hw.
  { intros Hw. unfold source_patterns in Hps. rewrite Hw in Hps.
    discriminate. }
  split; [reflexivity|]. split; [reflexivity|].
  split; [rewrite new_yielders_length; now apply Hlen|].
  split; [rewrite new_yielders_length; cbn [length]; lia|].
  intros k child Hk. rewrite new_yielders_lookup in Hk.
  destruct ((p :: p' :: ps) !! k) as [pattern|]; [|discriminate].
  injection Hk as <-. exists pattern. split; [reflexivity|].
  unfold yielder_at, yielder_options. now rewrite Z.add_0_l.
Qed.

End ConstructedKernel.

Lemma parity_failure_point_witness :
  InputOp_new tt two_patterns_one_weight [] =
    (Failed (InvalidArgument parity_message),
     [LogInfo "Create RecordProcessor"; NewRecordProcessor]).
Proof.
  apply (parity_failure_point tt two_patterns_one_weight []);
    [reflexivity | discriminate | discriminate].
Defined.


Lemma construction_order_witness :
  exists op tr',
    InputOp_new tt two_sources_auto_seed [] = (Done op, tr') /\
    tr' = construction_events two_sources_auto_seed.
Proof.
  destruct (InputOp_new tt two_sources_auto_seed []) as [[op|e|] tr'] eqn:Hrun;
    [| vm_compute in Hrun; discriminate..].
  exists op, tr'. split; [reflexivity|].
  exact (proj1 (construction_order tt two_sources_auto_seed [] tr' op Hrun)).
Defined.

Lemma constructed_mixer_witness :
  exists op tr' children,
    InputOp_new tt two_sources_auto_seed [] = (Done op, tr') /\
    yielder_ (batcher_ op) =
      WeightedMixYielder 0 children [0.75%float; 0.25%float] /\
    length children = 2%nat.
Proof.
  destruct (InputOp_new tt two_sources_auto_seed []) as [[op|e|] tr'] eqn:Hrun;
    [| vm_compute in Hrun; discriminate..].
  assert (exists children,
            yielder_ (batcher_ op) =
              WeightedMixYielder 0 children [0.75%float; 0.25%float])
    as [children Hmix].
  { vm_compute in Hrun. injection Hrun as <- _. eexists. reflexivity. }
  exists op, tr', children. split; [reflexivity|]. split; [exact Hmix|].
  exact (proj1 (proj2 (proj2
           (constructed_mixer tt two_sources_auto_seed [] tr' op _ _ _
              Hrun Hmix)))).
Defined.
